(** * Spotify Music Recommender (src/main.py): model and verified properties

    The tool [SpotifyTool] resolves every artist name to a catalog id,
    fetches the artist's top tracks, flattens everything into one pool and
    draws the requested number of track names with [random.sample].

    The catalog client [sp] (spotipy) and [random.sample] are library code;
    they are modelled by the shape of the data the script reads from them:
    the client as a pair of total functions returning the JSON objects the
    script subscripts, the sampler as selection without replacement driven
    by an explicit stream of draws.  Transport failures of the two remote
    calls and the [print] calls of [_run] are outside the model. *)

From Stdlib Require Import ZArith.
From stdpp Require Import base list gmap strings pretty.

Local Open Scope Z_scope.

(** ** Python exceptions and the error monad *)

(** The exceptions that can escape the modelled code.  [ValueError] carries
    the message text, which is what tells the four raise sites apart. *)
Inductive exn : Type :=
  | ValueError (msg : string)
  | IndexError (msg : string)
  | KeyError (key : string).

Inductive result (A : Type) : Type :=
  | Ok (a : A)
  | Raise (e : exn).
Arguments Ok {A} a.
Arguments Raise {A} e.

#[global] Instance result_ret : MRet result := fun _ a => Ok a.
#[global] Instance result_bind : MBind result := fun _ _ k m =>
  match m with
  | Ok a => k a
  | Raise e => Raise e
  end.
#[global] Instance result_fmap : FMap result := fun _ _ f m =>
  match m with
  | Ok a => Ok (f a)
  | Raise e => Raise e
  end.

Definition is_ok {A} (m : result A) : Prop := ∃ a, m = Ok a.

(** ** The objects returned by the catalog client *)

(** An artist object; the script reads its ['id'] key. *)
Record artist_object : Type := ArtistObject { artist_object_id : string }.

(** The paging object stored under ['artists']; the script reads ['items']. *)
Record paging_object : Type := PagingObject { paging_items : list artist_object }.

(** A track object; the script reads its ['name'] key. *)
Record track_object : Type := TrackObject { track_name : string }.

(** The response of [artist_top_tracks]; the script reads ['tracks']. *)
Record top_tracks_object : Type := TopTracks { top_tracks_tracks : list track_object }.

(** The global client [sp].  [search q type] answers with a dict that has
    one paging object per requested type. *)
Record client : Type := Client {
  search : string → string → gmap string paging_object;
  artist_top_tracks : string → top_tracks_object
}.

(** ** Python primitives used by the script *)

(** [d[key]] on a dict. *)
Definition getitem {V} (d : gmap string V) (key : string) : result V :=
  match d !! key with
  | Some v => Ok v
  | None => Raise (KeyError key)
  end.

(** [l[0]] on a list. *)
Definition first_item {A} (l : list A) : result A :=
  match l with
  | x :: _ => Ok x
  | [] => Raise (IndexError "list index out of range")
  end.

(** [l[:stop]]: a negative bound counts from the end, and both ends clamp. *)
Definition slice_to {A} (stop : Z) (l : list A) : list A :=
  let len := Z.of_nat (length l) in
  let stop' := if stop <? 0 then Z.max 0 (stop + len) else Z.min stop len in
  take (Z.to_nat stop') l.

(** [random.sample]'s selection: the [i]-th draw picks one of the entries
    still in the pool, which then leaves the pool. *)
Fixpoint sample_draws {A} (rng : nat → nat) (i : nat) (pool : list A) (k : nat)
    : list A :=
  match k with
  | O => []
  | S k' =>
    let j := (rng i mod length pool)%nat in
    match pool !! j with
    | Some x => x :: sample_draws rng (S i) (delete j pool) k'
    | None => []
    end
  end.

(** [random.sample(population, k)]. *)
Definition sample {A} (rng : nat → nat) (population : list A) (k : Z)
    : result (list A) :=
  let n := Z.of_nat (length population) in
  if (0 <=? k) && (k <=? n) then Ok (sample_draws rng 0 population (Z.to_nat k))
  else Raise (ValueError "Sample larger than population or is negative").

(** ** SpotifyTool *)

Definition retrieve_id (sp : client) (artist_name : string) : result string :=
  let results := search sp ("artist:" +:+ artist_name) "artist" in
  if (0 <? size results)%nat then
    artists ← getitem results "artists";
    first ← first_item (paging_items artists);
    Ok (artist_object_id first)
  else
    Raise (ValueError ("No artists found with this name: " +:+ artist_name)).

Definition retrieve_tracks (sp : client) (artist_id : string) (num_tracks : Z)
    : result (list string) :=
  if 10 <? num_tracks then
    Raise (ValueError "Can only provide up to 10 tracks per artist")
  else
    let top_tracks := artist_top_tracks sp artist_id in
    Ok (foldl (fun tracks track => tracks ++ [track_name track]) []
              (slice_to num_tracks (top_tracks_tracks top_tracks))).

(** The loop of [all_top_tracks], with the list built so far. *)
Fixpoint all_top_tracks_loop (sp : client) (artist_array : list string)
    (complete_track_arr : list (gmap string (list string)))
    : result (list (gmap string (list string))) :=
  match artist_array with
  | [] => Ok complete_track_arr
  | artist :: rest =>
    artist_id ← retrieve_id sp artist;
    top ← retrieve_tracks sp artist_id 10;
    let all_tracks : gmap string (list string) := {[ artist := top ]} in
    all_top_tracks_loop sp rest (complete_track_arr ++ [all_tracks])
  end.

Definition all_top_tracks (sp : client) (artist_array : list string)
    : result (list (gmap string (list string))) :=
  all_top_tracks_loop sp artist_array [].

(** The comprehension of [_run]:
    [[track for artist_map in all_tracks_map
            for artist, tracks in artist_map.items() for track in tracks]]. *)
Definition flatten_tracks (all_tracks_map : list (gmap string (list string)))
    : list string :=
  artist_map ← all_tracks_map;
  '(artist, tracks) ← map_to_list artist_map;
  track ← tracks;
  [track].

Definition _run (sp : client) (rng : nat → nat) (artists : list string)
    (tracks : Z) : result (list string) :=
  let num_artists := Z.of_nat (length artists) in
  let max_tracks := num_artists * 10 in
  all_tracks_map ← all_top_tracks sp artists;
  let all_tracks := flatten_tracks all_tracks_map in
  if max_tracks <? tracks then
    Raise (ValueError
      ("Only 10 tracks per artist, max tracks for this many artists is: "
       +:+ pretty max_tracks))
  else
    sample rng all_tracks tracks.

(** ** Views used to state the properties *)

(** The ArtistId a query resolves to, which is the id [all_top_tracks]
    fetches the query's track list with (the empty string stands in where the
    query does not resolve). *)
Definition artist_id_of (sp : client) (artist : string) : string :=
  match retrieve_id sp artist with
  | Ok artist_id => artist_id
  | Raise _ => ""
  end.

(** The pool of [_run] with every track name paired with the ArtistId it was
    fetched for: the same comprehension, keeping [(artist_id, track)].  The
    dicts of [all_top_tracks] are keyed by the query and no longer hold the
    id, so it is recovered from the query. *)
Definition flatten_pairs (sp : client)
    (all_tracks_map : list (gmap string (list string)))
    : list (string * string) :=
  artist_map ← all_tracks_map;
  '(artist, tracks) ← map_to_list artist_map;
  track ← tracks;
  [(artist_id_of sp artist, track)].

(** [_run] on the tagged pool: the (artist, track) pairs behind its result. *)
Definition drawn_pairs (sp : client) (rng : nat → nat) (artists : list string)
    (tracks : Z) : result (list (string * string)) :=
  let num_artists := Z.of_nat (length artists) in
  let max_tracks := num_artists * 10 in
  all_tracks_map ← all_top_tracks sp artists;
  let all_pairs := flatten_pairs sp all_tracks_map in
  if max_tracks <? tracks then
    Raise (ValueError
      ("Only 10 tracks per artist, max tracks for this many artists is: "
       +:+ pretty max_tracks))
  else
    sample rng all_pairs tracks.

(** The list of one-entry dicts read as a single mapping from artist query
    to track list. *)
Definition as_mapping (all_tracks_map : list (gmap string (list string)))
    : gmap string (list string) :=
  ⋃ all_tracks_map.

(** One iteration of [all_top_tracks] for a query. *)
Definition top_of (sp : client) (artist : string) : result (list string) :=
  artist_id ← retrieve_id sp artist;
  retrieve_tracks sp artist_id 10.

(** The track list [all_top_tracks] stores for a query that resolves (the
    empty list stands in where it does not). *)
Definition tracks_for (sp : client) (artist : string) : list string :=
  match top_of sp artist with
  | Ok top => top
  | Raise _ => []
  end.

(** The one-entry dict [all_top_tracks] appends for a query that resolves. *)
Definition entry (sp : client) (artist : string) : gmap string (list string) :=
  {[ artist := tracks_for sp artist ]}.

(** ** A small catalog for the examples *)

Module Demo.

Definition named (names : list string) : top_tracks_object :=
  TopTracks (TrackObject <$> names).

Definition ten (p : string) : list string :=
  (fun i : nat => p +:+ pretty i) <$> seq 0 10.

(** "A" and "B" have ten tracks each, "C" has three, "D" has one, and
    "Z" is answered with an empty item list. *)
Definition catalog : client := {|
  search q type :=
    if decide (q = "artist:Z") then {[ "artists" := PagingObject [] ]}
    else {[ "artists" := PagingObject [ArtistObject ("id-" +:+ q)] ]};
  artist_top_tracks artist_id :=
    if decide (artist_id = "id-artist:A") then named (ten "a")
    else if decide (artist_id = "id-artist:B") then named (ten "b")
    else if decide (artist_id = "id-artist:C") then named ["c0"; "c1"; "c2"]
    else named ["d0"]
|}.

(** A catalog whose search answers with the empty dict. *)
Definition silent : client := {|
  search q type := ∅;
  artist_top_tracks artist_id := named []
|}.

Definition rng : nat → nat := fun i => (7 * i + 3)%nat.

(** A catalog whose search finds two artists for every name. *)
Definition two_matches : client := {|
  search q type :=
    {[ "artists" := PagingObject [ArtistObject "first"; ArtistObject "second"] ]};
  artist_top_tracks artist_id := named [artist_id +:+ "-hit"]
|}.

(** A catalog whose search answers under another key than ['artists']. *)
Definition other_key : client := {|
  search q type := {[ "albums" := PagingObject [ArtistObject "x"] ]};
  artist_top_tracks artist_id := named []
|}.

End Demo.

(** ** The error monad *)

Lemma bind_Ok_inv {A B} (m : result A) (k : A → result B) (b : B) :
  m ≫= k = Ok b → ∃ a, m = Ok a ∧ k a = Ok b.
Proof. destruct m as [a|e]; [eauto | discriminate]. Qed.

Ltac inv_bind H :=
  let a := fresh "a" in
  let Ha := fresh "H" a in
  apply bind_Ok_inv in H as (a & Ha & H).

(** ** Slices and the append loop *)

Lemma slice_to_nonneg {A} (stop : Z) (l : list A) :
  0 ≤ stop → slice_to stop l = take (Z.to_nat stop) l.
Proof.
  intros Hs. unfold slice_to.
  destruct (Z.ltb_spec stop 0) as [?|_]; [lia|].
  destruct (Z.le_ge_cases stop (Z.of_nat (length l))) as [Hle|Hge].
  - by rewrite Z.min_l.
  - rewrite Z.min_r, Nat2Z.id by done.
    rewrite firstn_all. symmetry. apply take_ge. lia.
Qed.

Lemma slice_to_neg {A} (stop : Z) (l : list A) :
  stop < 0 → slice_to stop l = take (length l - Z.abs_nat stop) l.
Proof.
  intros Hs. unfold slice_to.
  destruct (Z.ltb_spec stop 0) as [_|?]; [|lia].
  f_equal. lia.
Qed.

Lemma append_loop {A B} (f : A → B) (l : list A) (acc : list B) :
  foldl (fun tracks track => tracks ++ [f track]) acc l = acc ++ (f <$> l).
Proof.
  revert acc. induction l as [|x l IH]; intros acc; simpl.
  - by rewrite app_nil_r.
  - by rewrite IH, <- app_assoc.
Qed.

(** What [retrieve_tracks] returns once the limit check has passed. *)
Lemma retrieve_tracks_ok sp artist_id num_tracks :
  num_tracks ≤ 10 →
  retrieve_tracks sp artist_id num_tracks =
  Ok (track_name <$>
        slice_to num_tracks (top_tracks_tracks (artist_top_tracks sp artist_id))).
Proof.
  intros Hle. unfold retrieve_tracks.
  destruct (Z.ltb_spec 10 num_tracks) as [?|_]; [lia|].
  by rewrite append_loop.
Qed.

(** ** Sampling without replacement *)

Section sampling.
Context {A : Type}.
Implicit Types (pool : list A) (rng : nat → nat).

Lemma draw_in_range rng i pool :
  pool ≠ [] → is_Some (pool !! (rng i mod length pool)%nat).
Proof.
  intros Hne. apply lookup_lt_is_Some, Nat.mod_upper_bound.
  by destruct pool.
Qed.

Lemma sample_draws_length rng i pool k :
  (k ≤ length pool)%nat → length (sample_draws rng i pool k) = k.
Proof.
  revert i pool. induction k as [|k IH]; intros i pool Hk; [done|].
  simpl. destruct (draw_in_range rng i pool) as [x Hx].
  { intros ->. simpl in Hk. lia. }
  rewrite Hx. simpl. f_equal. apply IH.
  rewrite length_delete by eauto. lia.
Qed.

(** The draws form a sub-multiset of the pool: no position is used twice. *)
Lemma sample_draws_submseteq rng i pool k :
  sample_draws rng i pool k ⊆+ pool.
Proof.
  revert i pool. induction k as [|k IH]; intros i pool; simpl.
  - apply submseteq_nil_l.
  - destruct (pool !! _) as [x|] eqn:Hx; [|apply submseteq_nil_l].
    etrans; [apply submseteq_skip, IH|].
    apply Permutation_submseteq. symmetry. by apply delete_Permutation.
Qed.

Lemma sample_Ok_inv rng pool k res :
  sample rng pool k = Ok res →
  0 ≤ k ≤ Z.of_nat (length pool) ∧ res = sample_draws rng 0 pool (Z.to_nat k).
Proof.
  unfold sample. intros H.
  destruct (Z.leb_spec 0 k), (Z.leb_spec k (Z.of_nat (length pool)));
    simpl in H; try discriminate.
  split; [lia | congruence].
Qed.

Lemma sample_length rng pool k res :
  sample rng pool k = Ok res → Z.of_nat (length res) = k.
Proof.
  intros [Hk ->]%sample_Ok_inv. rewrite sample_draws_length; lia.
Qed.

Lemma sample_submseteq rng pool k res :
  sample rng pool k = Ok res → res ⊆+ pool.
Proof. intros [_ ->]%sample_Ok_inv. apply sample_draws_submseteq. Qed.

(** Hence a pool without duplicates gives draws without duplicates. *)
Lemma sample_NoDup rng pool k res :
  sample rng pool k = Ok res → NoDup pool → NoDup res.
Proof.
  intros Hres Hpool.
  destruct (submseteq_Permutation _ _ (sample_submseteq _ _ _ _ Hres))
    as [rest Hperm].
  rewrite Hperm in Hpool. by apply NoDup_app in Hpool as [? _].
Qed.

Lemma sample_too_large rng pool k :
  Z.of_nat (length pool) < k →
  sample rng pool k =
  Raise (ValueError "Sample larger than population or is negative").
Proof.
  intros Hk. unfold sample.
  destruct (Z.leb_spec k (Z.of_nat (length pool))); [lia|].
  by rewrite andb_false_r.
Qed.

Lemma sample_zero rng pool : sample rng pool 0 = Ok [].
Proof.
  unfold sample. destruct (Z.leb_spec 0 (Z.of_nat (length pool))); [done|lia].
Qed.
End sampling.

(** The sampler only moves entries around: it commutes with relabelling. *)
Lemma sample_draws_fmap {A B} (f : A → B) rng i (pool : list A) k :
  sample_draws rng i (f <$> pool) k = f <$> sample_draws rng i pool k.
Proof.
  revert i pool. induction k as [|k IH]; intros i pool; [done|].
  simpl. rewrite length_fmap, list_lookup_fmap.
  destruct (pool !! _) as [x|]; [|done].
  simpl. by rewrite <- list_fmap_delete, IH.
Qed.

Lemma sample_fmap {A B} (f : A → B) rng (pool : list A) k :
  sample rng (f <$> pool) k = fmap (M:=list) f <$> sample rng pool k.
Proof.
  unfold sample. rewrite length_fmap.
  destruct (_ && _); [|done].
  simpl. by rewrite sample_draws_fmap.
Qed.

(** ** The aggregation loop *)

Section aggregation.
Variable sp : client.

Lemma top_of_Ok artist top :
  top_of sp artist = Ok top → tracks_for sp artist = top.
Proof. unfold tracks_for. by intros ->. Qed.

(** Fetching with the limit 10 never trips the limit check, so a query
    gets its entry exactly when it resolves. *)
Lemma top_of_is_ok artist :
  is_ok (top_of sp artist) ↔ is_ok (retrieve_id sp artist).
Proof.
  unfold top_of. split.
  - intros [top H]. inv_bind H. by eexists.
  - intros [artist_id ->]. simpl.
    rewrite retrieve_tracks_ok by lia. by eexists.
Qed.

Lemma top_of_take artist artist_id :
  retrieve_id sp artist = Ok artist_id →
  top_of sp artist =
  Ok (track_name <$> take 10 (top_tracks_tracks (artist_top_tracks sp artist_id))).
Proof.
  intros H. unfold top_of. rewrite H. simpl.
  rewrite retrieve_tracks_ok, slice_to_nonneg by lia. done.
Qed.

Lemma loop_step artist rest acc :
  all_top_tracks_loop sp (artist :: rest) acc =
  top ← top_of sp artist;
  all_top_tracks_loop sp rest (acc ++ [{[ artist := top ]}]).
Proof. unfold top_of. simpl. by destruct (retrieve_id sp artist). Qed.

Lemma loop_Ok artists acc :
  Forall (fun artist => is_ok (top_of sp artist)) artists →
  all_top_tracks_loop sp artists acc = Ok (acc ++ (entry sp <$> artists)).
Proof.
  intros Hall. revert acc.
  induction Hall as [|artist rest [top Htop] _ IH]; intros acc.
  - simpl. by rewrite app_nil_r.
  - rewrite loop_step, Htop. simpl. rewrite IH, <- app_assoc.
    unfold entry at 2. by rewrite (top_of_Ok _ _ Htop).
Qed.

Lemma loop_Ok_inv artists acc res :
  all_top_tracks_loop sp artists acc = Ok res →
  Forall (fun artist => is_ok (top_of sp artist)) artists.
Proof.
  revert acc. induction artists as [|artist rest IH]; intros acc H.
  - constructor.
  - rewrite loop_step in H. inv_bind H. constructor; [by eexists | eauto].
Qed.

(** [all_top_tracks] succeeds exactly when every query resolves, and then
    holds one entry per query, in the order of the queries. *)
Lemma all_top_tracks_Ok artists :
  Forall (fun artist => is_ok (retrieve_id sp artist)) artists →
  all_top_tracks sp artists = Ok (entry sp <$> artists).
Proof.
  intros Hall. unfold all_top_tracks. rewrite loop_Ok; [done|].
  eapply Forall_impl; [exact Hall|]. intros a. apply top_of_is_ok.
Qed.

Lemma all_top_tracks_Ok_inv artists res :
  all_top_tracks sp artists = Ok res →
  Forall (fun artist => is_ok (retrieve_id sp artist)) artists ∧
  res = entry sp <$> artists.
Proof.
  intros H. assert (Hall := loop_Ok_inv _ _ _ H).
  assert (Hres : Forall (fun artist => is_ok (retrieve_id sp artist)) artists).
  { eapply Forall_impl; [exact Hall|]. intros a. apply top_of_is_ok. }
  split; [done|]. rewrite (all_top_tracks_Ok _ Hres) in H. congruence.
Qed.

(** The first query that does not resolve decides the exception. *)
Lemma all_top_tracks_Raise before artist after e :
  Forall (fun a => is_ok (retrieve_id sp a)) before →
  retrieve_id sp artist = Raise e →
  all_top_tracks sp (before ++ artist :: after) = Raise e.
Proof.
  intros Hall He. unfold all_top_tracks. generalize (@nil (gmap string (list string))).
  induction Hall as [|a rest [top Htop]%top_of_is_ok _ IH]; intros acc.
  - simpl. by rewrite He.
  - rewrite <- app_comm_cons, loop_step, Htop. simpl. apply IH.
Qed.
End aggregation.

(** ** The pool *)

Lemma flatten_tracks_pairs sp all_tracks_map :
  flatten_tracks all_tracks_map = (flatten_pairs sp all_tracks_map).*2.
Proof.
  unfold flatten_tracks, flatten_pairs.
  induction all_tracks_map as [|artist_map rest IH]; [done|].
  rewrite !bind_cons, fmap_app, IH. f_equal.
  induction (map_to_list artist_map) as [|[artist tracks] items IHi]; [done|].
  rewrite !bind_cons, fmap_app, IHi. f_equal.
  induction tracks as [|track tracks IHt]; [done|].
  rewrite !bind_cons, fmap_app, IHt. done.
Qed.

Lemma flatten_pairs_entries sp artists :
  flatten_pairs sp (entry sp <$> artists) =
  artists ≫= (fun artist => pair (artist_id_of sp artist) <$> tracks_for sp artist).
Proof.
  unfold flatten_pairs.
  induction artists as [|artist rest IH]; [done|].
  rewrite fmap_cons, !bind_cons, IH. f_equal. unfold entry.
  rewrite map_to_list_singleton, bind_cons. simpl. rewrite app_nil_r.
  induction (tracks_for sp artist) as [|track tracks IHt]; [done|].
  rewrite bind_cons, fmap_cons, IHt. done.
Qed.

(** Every query contributes at most ten tracks to the pool. *)
Lemma tracks_for_length sp artist : (length (tracks_for sp artist) ≤ 10)%nat.
Proof.
  unfold tracks_for. destruct (retrieve_id sp artist) as [artist_id|e] eqn:H.
  - rewrite (top_of_take _ _ _ H), length_fmap, length_take. lia.
  - unfold top_of. rewrite H. simpl. lia.
Qed.

Lemma flatten_pairs_length sp artists :
  (length (flatten_pairs sp (entry sp <$> artists)) ≤ 10 * length artists)%nat.
Proof.
  rewrite flatten_pairs_entries.
  induction artists as [|artist rest IH]; [done|].
  rewrite bind_cons, length_app, length_fmap.
  pose proof (tracks_for_length sp artist). simpl length. lia.
Qed.

(** The result of [_run] is the second component of [drawn_pairs]. *)
Lemma _run_drawn_pairs sp rng artists tracks :
  _run sp rng artists tracks =
  fmap (M:=list) snd <$> drawn_pairs sp rng artists tracks.
Proof.
  unfold _run, drawn_pairs.
  destruct (all_top_tracks sp artists) as [all_tracks_map|e]; [|done].
  simpl. destruct (_ <? _); [done|].
  by rewrite (flatten_tracks_pairs sp), sample_fmap.
Qed.

(** Read as one mapping, the entries bind exactly the queries of the list. *)
Lemma as_mapping_lookup sp artists (q : string) :
  as_mapping (entry sp <$> artists) !! q =
  if decide (q ∈ artists) then Some (tracks_for sp q) else None.
Proof.
  unfold as_mapping. induction artists as [|artist rest IH].
  - rewrite decide_False by apply not_elem_of_nil. apply lookup_empty.
  - rewrite fmap_cons, union_list_cons, lookup_union, IH. unfold entry at 1.
    destruct (decide (artist = q)) as [->|Hne].
    + rewrite lookup_singleton_eq.
      rewrite (decide_True _ _ (list_elem_of_here q rest)).
      by case_decide.
    + rewrite lookup_singleton_ne by done.
      rewrite (left_id None _).
      destruct (decide (q ∈ rest)) as [Hin|Hnin].
      * by rewrite (decide_True _ _ (list_elem_of_further _ _ _ Hin)).
      * rewrite decide_False; [done|].
        rewrite elem_of_cons. intros [->|?]; done.
Qed.

(** Every pair of the pool is an id some requested query resolves to, with
    a name the service lists among the first ten tracks of that id. *)
Lemma pool_pairs_fetched sp artists artist_id track :
  Forall (fun artist => is_ok (retrieve_id sp artist)) artists →
  (artist_id, track) ∈ flatten_pairs sp (entry sp <$> artists) →
  ∃ artist,
    artist ∈ artists ∧ retrieve_id sp artist = Ok artist_id ∧
    track ∈ track_name <$>
              take 10 (top_tracks_tracks (artist_top_tracks sp artist_id)).
Proof.
  intros Hall Hin. rewrite flatten_pairs_entries in Hin.
  apply list_elem_of_bind in Hin as (artist & Hpair & Hartist).
  apply list_elem_of_fmap in Hpair as (t & [= -> ->] & Ht).
  rewrite Forall_forall in Hall. destruct (Hall _ Hartist) as [i Hi].
  exists artist. unfold artist_id_of. rewrite Hi. split; [done|].
  split; [done|]. unfold tracks_for in Ht.
  by rewrite (top_of_take _ _ _ Hi) in Ht.
Qed.

(** The pool holds no pair twice when the queries resolve to pairwise
    different ids and no fetched list repeats a name. *)
Lemma pool_NoDup sp artists :
  NoDup (artist_id_of sp <$> artists) →
  (∀ artist, artist ∈ artists → NoDup (tracks_for sp artist)) →
  NoDup (flatten_pairs sp (entry sp <$> artists)).
Proof.
  intros Hids Htracks. rewrite flatten_pairs_entries.
  apply NoDup_bind.
  - intros a1 a2 [i t] Ha1 Ha2 H1 H2.
    apply list_elem_of_fmap in H1 as (t1 & [= Hi1 _] & _).
    apply list_elem_of_fmap in H2 as (t2 & [= Hi2 _] & _).
    destruct (list_elem_of_lookup_1 _ _ Ha1) as [n1 Hn1].
    destruct (list_elem_of_lookup_1 _ _ Ha2) as [n2 Hn2].
    assert (n1 = n2) as ->; [|congruence].
    eapply NoDup_lookup; [exact Hids| |].
    + rewrite list_lookup_fmap, Hn1. simpl. by rewrite <- Hi1.
    + rewrite list_lookup_fmap, Hn2. simpl. by rewrite <- Hi2.
  - intros a Ha. apply (NoDup_fmap_2 _). by apply Htracks.
  - by eapply NoDup_fmap_1.
Qed.

(** What [_run] does once the aggregation has succeeded. *)
Lemma _run_resolved sp rng artists tracks :
  Forall (fun artist => is_ok (retrieve_id sp artist)) artists →
  _run sp rng artists tracks =
  if Z.of_nat (length artists) * 10 <? tracks then
    Raise (ValueError
      ("Only 10 tracks per artist, max tracks for this many artists is: "
       +:+ pretty (Z.of_nat (length artists) * 10)))
  else sample rng (flatten_tracks (entry sp <$> artists)) tracks.
Proof. intros Hall. unfold _run. by rewrite (all_top_tracks_Ok _ _ Hall). Qed.

(** * The properties *)

(** ** Length of the result *)

(** C1: whenever [_run] succeeds, the returned track list has exactly the
    requested number of entries (and that number is within ten per artist). *)
Theorem run_length sp rng artists tracks res :
  _run sp rng artists tracks = Ok res →
  Z.of_nat (length res) = tracks ∧ tracks ≤ 10 * Z.of_nat (length artists).
Proof.
  unfold _run. intros H. inv_bind H.
  destruct (Z.ltb_spec (Z.of_nat (length artists) * 10) tracks);
    [discriminate|].
  apply sample_length in H. lia.
Qed.

Lemma run_length_witness :
  ∃ res, _run Demo.catalog Demo.rng ["A"; "B"] 12 = Ok res ∧
         Z.of_nat (length res) = 12 ∧ 12 ≤ 10 * Z.of_nat (length ["A"; "B"]).
Proof.
  eexists. split; [vm_compute; reflexivity|].
  apply (run_length Demo.catalog Demo.rng ["A"; "B"] 12).
  vm_compute. reflexivity.
Defined.

(** ** A request for no track *)

(** C9: with a requested count of 0 [_run] returns the empty list whenever
    every artist of the list resolves; for the empty artist list with count 0
    it returns the empty list as well, nothing rejects either. *)
Theorem run_zero_tracks sp rng artists :
  Forall (fun artist => is_ok (retrieve_id sp artist)) artists →
  _run sp rng artists 0 = Ok [] ∧ _run sp rng [] 0 = Ok [].
Proof.
  intros Hall. split.
  - rewrite (_run_resolved _ _ _ _ Hall).
    destruct (Z.ltb_spec (Z.of_nat (length artists) * 10) 0); [lia|].
    apply sample_zero.
  - reflexivity.
Qed.

Lemma run_zero_tracks_witness :
  _run Demo.catalog Demo.rng ["A"; "C"] 0 = Ok [] ∧
  _run Demo.catalog Demo.rng [] 0 = Ok [].
Proof.
  apply (run_zero_tracks Demo.catalog Demo.rng ["A"; "C"]).
  repeat constructor; eexists; vm_compute; reflexivity.
Defined.

(** ** The capacity check *)

(** C3, as the code has it: the aggregation runs before the capacity check,
    so the check is reached only when every artist resolves; then a count
    above ten per artist raises the capacity [ValueError]. *)
Theorem run_exceeds_capacity sp rng artists tracks :
  Forall (fun artist => is_ok (retrieve_id sp artist)) artists →
  10 * Z.of_nat (length artists) < tracks →
  _run sp rng artists tracks =
  Raise (ValueError
    ("Only 10 tracks per artist, max tracks for this many artists is: "
     +:+ pretty (Z.of_nat (length artists) * 10))).
Proof.
  intros Hall Hgt. rewrite (_run_resolved _ _ _ _ Hall).
  destruct (Z.ltb_spec (Z.of_nat (length artists) * 10) tracks); [done|lia].
Qed.

Lemma run_exceeds_capacity_witness :
  _run Demo.catalog Demo.rng ["A"; "B"] 25 =
  Raise (ValueError
    "Only 10 tracks per artist, max tracks for this many artists is: 20").
Proof.
  apply (run_exceeds_capacity Demo.catalog Demo.rng ["A"; "B"] 25).
  - repeat constructor; eexists; vm_compute; reflexivity.
  - vm_compute. reflexivity.
Defined.

(** C3 as stated fails: a count above the capacity, but the only artist is
    answered with no item, and the lookup raises before the check. *)
Lemma run_capacity_preempted :
  10 * Z.of_nat (length ["Z"]) < 11 ∧
  _run Demo.catalog Demo.rng ["Z"] 11 =
    Raise (IndexError "list index out of range") ∧
  _run Demo.catalog Demo.rng ["Z"] 11 ≠
    Raise (ValueError
      "Only 10 tracks per artist, max tracks for this many artists is: 10").
Proof.
  split; [vm_compute; reflexivity|].
  split; [vm_compute; reflexivity|].
  vm_compute. discriminate.
Qed.

(** ** A pool smaller than the request *)

(** C5, as the code has it: when the fetched pool is smaller than a count
    that passes the capacity check, [_run] fails with the [ValueError] that
    [random.sample] raises on that pool; no check of its own precedes it. *)
Theorem run_insufficient_pool sp rng artists tracks all_tracks_map :
  all_top_tracks sp artists = Ok all_tracks_map →
  tracks ≤ 10 * Z.of_nat (length artists) →
  Z.of_nat (length (flatten_tracks all_tracks_map)) < tracks →
  _run sp rng artists tracks = sample rng (flatten_tracks all_tracks_map) tracks ∧
  _run sp rng artists tracks =
    Raise (ValueError "Sample larger than population or is negative").
Proof.
  intros Hagg Hcap Hpool. unfold _run. rewrite Hagg. simpl.
  destruct (Z.ltb_spec (Z.of_nat (length artists) * 10) tracks); [lia|].
  split; [done|]. by apply sample_too_large.
Qed.

Lemma run_insufficient_pool_witness :
  _run Demo.catalog Demo.rng ["C"] 5 =
    sample Demo.rng (flatten_tracks [entry Demo.catalog "C"]) 5 ∧
  _run Demo.catalog Demo.rng ["C"] 5 =
    Raise (ValueError "Sample larger than population or is negative").
Proof.
  apply (run_insufficient_pool Demo.catalog Demo.rng ["C"] 5).
  - vm_compute. reflexivity.
  - vm_compute. discriminate.
  - vm_compute. reflexivity.
Defined.

(** C5 as stated fails: "C" has three tracks and five are requested; the
    failure is the sampler's own exception on the three-entry pool. *)
Lemma run_insufficient_raised_in_sample :
  flatten_tracks [entry Demo.catalog "C"] = ["c0"; "c1"; "c2"] ∧
  5 ≤ 10 * Z.of_nat (length ["C"]) ∧
  sample Demo.rng ["c0"; "c1"; "c2"] 5 =
    Raise (ValueError "Sample larger than population or is negative") ∧
  _run Demo.catalog Demo.rng ["C"] 5 = sample Demo.rng ["c0"; "c1"; "c2"] 5.
Proof.
  split; [vm_compute; reflexivity|]. split; [vm_compute; discriminate|].
  split; vm_compute; reflexivity.
Qed.

(** ** The limit of [retrieve_tracks] *)

(** C6, as the code has it: a limit above 10 raises the limit [ValueError];
    a limit between 0 and 10 returns the first [limit] names of the
    service's list, in its order, so at most [limit] and at most 10 names. *)
Theorem retrieve_tracks_limit sp artist_id num_tracks :
  (10 < num_tracks →
   retrieve_tracks sp artist_id num_tracks =
   Raise (ValueError "Can only provide up to 10 tracks per artist")) ∧
  (0 ≤ num_tracks ≤ 10 →
   ∃ names,
     retrieve_tracks sp artist_id num_tracks = Ok names ∧
     names = take (Z.to_nat num_tracks)
               (track_name <$> top_tracks_tracks (artist_top_tracks sp artist_id)) ∧
     Z.of_nat (length names) ≤ num_tracks ∧
     (length names ≤ 10)%nat).
Proof.
  split.
  - intros Hgt. unfold retrieve_tracks.
    destruct (Z.ltb_spec 10 num_tracks); [done|lia].
  - intros [H0 H10]. eexists. split; [by apply retrieve_tracks_ok|].
    rewrite slice_to_nonneg, fmap_take by done.
    split; [done|]. rewrite length_take. lia.
Qed.

Lemma retrieve_tracks_limit_witness :
  retrieve_tracks Demo.catalog "id-artist:C" 11 =
    Raise (ValueError "Can only provide up to 10 tracks per artist") ∧
  ∃ names,
    retrieve_tracks Demo.catalog "id-artist:C" 2 = Ok names ∧
    names = take (Z.to_nat 2)
              (track_name <$>
                 top_tracks_tracks (artist_top_tracks Demo.catalog "id-artist:C")) ∧
    Z.of_nat (length names) ≤ 2 ∧
    (length names ≤ 10)%nat.
Proof.
  split.
  - apply (proj1 (retrieve_tracks_limit Demo.catalog "id-artist:C" 11)). lia.
  - apply (proj2 (retrieve_tracks_limit Demo.catalog "id-artist:C" 2)). lia.
Defined.

(** C6 as stated fails for a negative limit: [-1] is not greater than 10,
    and two names come back, which is more than [-1]. *)
Lemma retrieve_tracks_exceeds_negative_limit :
  ¬ 10 < -1 ∧
  retrieve_tracks Demo.catalog "id-artist:C" (-1) = Ok ["c0"; "c1"] ∧
  ¬ Z.of_nat (length ["c0"; "c1"]) ≤ -1.
Proof.
  split; [lia|]. split; [vm_compute; reflexivity|]. simpl. lia.
Qed.

(** C10: a negative limit passes the limit check, and the slice returns all
    but the last [|limit|] names: none when [|limit|] reaches the length. *)
Theorem retrieve_tracks_negative sp artist_id num_tracks :
  num_tracks < 0 →
  let names := track_name <$> top_tracks_tracks (artist_top_tracks sp artist_id) in
  retrieve_tracks sp artist_id num_tracks =
    Ok (take (length names - Z.abs_nat num_tracks) names) ∧
  ((length names ≤ Z.abs_nat num_tracks)%nat →
   retrieve_tracks sp artist_id num_tracks = Ok []).
Proof.
  intros Hneg names.
  assert (Hret : retrieve_tracks sp artist_id num_tracks =
                 Ok (take (length names - Z.abs_nat num_tracks) names)).
  { rewrite retrieve_tracks_ok by lia. rewrite slice_to_neg by done.
    subst names. by rewrite fmap_take, length_fmap. }
  split; [done|]. intros Hle. rewrite Hret.
  by replace (length names - Z.abs_nat num_tracks)%nat with 0%nat by lia.
Qed.

Lemma retrieve_tracks_negative_witness :
  retrieve_tracks Demo.catalog "id-artist:C" (-1) = Ok ["c0"; "c1"] ∧
  retrieve_tracks Demo.catalog "id-artist:C" (-5) = Ok [].
Proof.
  split.
  - apply (proj1 (retrieve_tracks_negative Demo.catalog "id-artist:C" (-1)
                    ltac:(lia))).
  - apply (proj2 (retrieve_tracks_negative Demo.catalog "id-artist:C" (-5)
                    ltac:(lia))).
    vm_compute. lia.
Defined.

(** ** The zero-matches branch of [retrieve_id] *)

(** C8: the test of [retrieve_id] counts the keys of the response, so for a
    response with at least one key (one holding ['artists'] in particular)
    the "No artists found" [ValueError] is never raised; and when the item
    list under ['artists'] is empty the call fails at [[0]]. *)
Theorem retrieve_id_branch sp artist_name :
  let results := search sp ("artist:" +:+ artist_name) "artist" in
  (results ≠ ∅ → ∀ msg, retrieve_id sp artist_name ≠ Raise (ValueError msg)) ∧
  (∀ artists, results !! "artists" = Some artists →
     (∀ msg, retrieve_id sp artist_name ≠ Raise (ValueError msg)) ∧
     (paging_items artists = [] →
      retrieve_id sp artist_name = Raise (IndexError "list index out of range"))).
Proof.
  intros results.
  assert (Hne : results ≠ ∅ →
                ∀ msg, retrieve_id sp artist_name ≠ Raise (ValueError msg)).
  { intros Hres msg. unfold retrieve_id. fold results.
    apply map_size_non_empty_iff in Hres.
    destruct (Nat.ltb_spec 0 (size results)); [|lia].
    unfold getitem. destruct (results !! "artists") as [artists|]; [|done].
    simpl. by destruct (paging_items artists). }
  split; [done|]. intros artists Hartists. split.
  - apply Hne. intros Hempty. by rewrite Hempty, lookup_empty in Hartists.
  - intros Hitems. unfold retrieve_id. fold results.
    assert (size results ≠ 0%nat).
    { apply map_size_non_empty_iff. intros Hempty.
      by rewrite Hempty, lookup_empty in Hartists. }
    destruct (Nat.ltb_spec 0 (size results)); [|lia].
    unfold getitem. rewrite Hartists. simpl. by rewrite Hitems.
Qed.

Lemma retrieve_id_branch_witness :
  (∀ msg, retrieve_id Demo.catalog "Z" ≠ Raise (ValueError msg)) ∧
  retrieve_id Demo.catalog "Z" = Raise (IndexError "list index out of range").
Proof.
  destruct (proj2 (retrieve_id_branch Demo.catalog "Z") (PagingObject []))
    as [Hnever Hindex].
  - vm_compute. reflexivity.
  - split; [exact Hnever|]. apply Hindex. reflexivity.
Defined.

(** The "No artists found" branch is taken for the empty response only. *)
Example retrieve_id_empty_response :
  retrieve_id Demo.silent "Z" =
  Raise (ValueError "No artists found with this name: Z").
Proof. vm_compute. reflexivity. Qed.

(** ** An artist without a match *)

(** C4 at a failing input: the search for "Z" answers with an empty item
    list, and [_run] raises the [IndexError] of [[0]], which names no artist,
    where the "No artists found with this name: Z" [ValueError] was meant. *)
Theorem run_unmatched_artist :
  paging_items <$> (search Demo.catalog "artist:Z" "artist" !! "artists") = Some [] ∧
  _run Demo.catalog Demo.rng ["Z"] 1 = Raise (IndexError "list index out of range") ∧
  _run Demo.catalog Demo.rng ["Z"] 1 ≠
    Raise (ValueError "No artists found with this name: Z").
Proof.
  split; [vm_compute; reflexivity|].
  split; [vm_compute; reflexivity|].
  vm_compute. discriminate.
Qed.

(** ** Sampling without replacement *)

(** C2, as the code has it: the draws never use a pool entry twice, so the
    (artist, track) pairs behind a successful result are a sub-multiset of the
    fetched pool, whose pairs are the ids the queries resolve to with the
    names fetched for them; a pair is returned at most as often as it was
    fetched, and not twice when the pool holds no pair twice. *)
Theorem run_pairs_NoDup sp rng artists tracks res :
  _run sp rng artists tracks = Ok res →
  ∃ all_tracks_map pairs,
    all_top_tracks sp artists = Ok all_tracks_map ∧
    drawn_pairs sp rng artists tracks = Ok pairs ∧
    res = pairs.*2 ∧
    pairs ⊆+ flatten_pairs sp all_tracks_map ∧
    (NoDup (flatten_pairs sp all_tracks_map) → NoDup pairs) ∧
    ∀ artist_id track,
      (artist_id, track) ∈ flatten_pairs sp all_tracks_map →
      ∃ artist,
        artist ∈ artists ∧ retrieve_id sp artist = Ok artist_id ∧
        track ∈ track_name <$>
                  take 10 (top_tracks_tracks (artist_top_tracks sp artist_id)).
Proof.
  intros Hrun.
  rewrite _run_drawn_pairs in Hrun.
  destruct (drawn_pairs sp rng artists tracks) as [pairs|e] eqn:Hpairs;
    [|discriminate].
  unfold drawn_pairs in Hpairs. inv_bind Hpairs.
  destruct (all_top_tracks_Ok_inv _ _ _ Ha) as [Hall ->].
  exists (entry sp <$> artists), pairs.
  split; [done|]. split; [done|]. split; [by injection Hrun|].
  destruct (_ <? _); [discriminate|].
  split; [by eapply sample_submseteq|].
  split; [by eapply sample_NoDup|].
  intros artist_id track. by apply pool_pairs_fetched.
Qed.

Lemma run_pairs_NoDup_witness :
  ∃ all_tracks_map pairs,
    all_top_tracks Demo.catalog ["C"; "D"] = Ok all_tracks_map ∧
    drawn_pairs Demo.catalog Demo.rng ["C"; "D"] 3 = Ok pairs ∧
    ["d0"; "c1"; "c2"] = pairs.*2 ∧
    pairs ⊆+ flatten_pairs Demo.catalog all_tracks_map ∧
    (NoDup (flatten_pairs Demo.catalog all_tracks_map) → NoDup pairs) ∧
    ∀ artist_id track,
      (artist_id, track) ∈ flatten_pairs Demo.catalog all_tracks_map →
      ∃ artist,
        artist ∈ ["C"; "D"] ∧ retrieve_id Demo.catalog artist = Ok artist_id ∧
        track ∈ track_name <$>
                  take 10 (top_tracks_tracks
                             (artist_top_tracks Demo.catalog artist_id)).
Proof.
  apply (run_pairs_NoDup Demo.catalog Demo.rng ["C"; "D"] 3).
  vm_compute. reflexivity.
Defined.

(** C2 as stated fails when a query is repeated: "D" has one track, the
    request names "D" twice and asks for two tracks, and the pair of the
    artist "D" resolves to with the name "d0" is drawn twice. *)
Lemma run_repeated_artist_pairs :
  _run Demo.catalog Demo.rng ["D"; "D"] 2 = Ok ["d0"; "d0"] ∧
  drawn_pairs Demo.catalog Demo.rng ["D"; "D"] 2 =
    Ok [("id-artist:D", "d0"); ("id-artist:D", "d0")] ∧
  ¬ NoDup [("id-artist:D", "d0"); ("id-artist:D", "d0")].
Proof.
  split; [vm_compute; reflexivity|]. split; [vm_compute; reflexivity|].
  intros Hnd. apply NoDup_cons in Hnd as [Hnotin _].
  apply Hnotin, list_elem_of_here.
Qed.

(** The same happens without a repeated query, when two different queries
    resolve to one artist: the dicts are keyed by the query, the id is not
    compared, and the artist's track is fetched and returned twice. *)
Example run_two_queries_one_artist :
  NoDup ["Queen"; "queen"] ∧
  _run Demo.two_matches Demo.rng ["Queen"; "queen"] 2 =
    Ok ["first-hit"; "first-hit"] ∧
  drawn_pairs Demo.two_matches Demo.rng ["Queen"; "queen"] 2 =
    Ok [("first", "first-hit"); ("first", "first-hit")].
Proof.
  split.
  - apply NoDup_cons. split; [|apply NoDup_singleton].
    intros Hin%list_elem_of_singleton. discriminate.
  - split; vm_compute; reflexivity.
Qed.

(** The condition on the pool cannot be dropped: when the pool holds a pair
    twice, a request for the whole pool returns that pair twice. *)
Lemma run_whole_pool_pairs sp rng artists tracks all_tracks_map pairs :
  all_top_tracks sp artists = Ok all_tracks_map →
  drawn_pairs sp rng artists tracks = Ok pairs →
  tracks = Z.of_nat (length (flatten_pairs sp all_tracks_map)) →
  pairs ≡ₚ flatten_pairs sp all_tracks_map ∧
  (¬ NoDup (flatten_pairs sp all_tracks_map) → ¬ NoDup pairs).
Proof.
  intros Hagg Hpairs Htracks. unfold drawn_pairs in Hpairs.
  rewrite Hagg in Hpairs. simpl in Hpairs.
  destruct (_ <? _); [discriminate|].
  assert (Hperm : pairs ≡ₚ flatten_pairs sp all_tracks_map).
  { apply submseteq_length_Permutation; [by eapply sample_submseteq|].
    apply sample_length in Hpairs. lia. }
  split; [done|]. intros Hdup Hnd. apply Hdup. by rewrite <- Hperm.
Qed.

(** ** Order of the queries *)

(** C7: for a permutation of the artist list the aggregation succeeds as
    well and, read as a mapping from query to track list, has the same
    content: every query of the list is bound to the same top-10 list. *)
Theorem all_top_tracks_permutation sp artists artists' all_tracks_map :
  artists ≡ₚ artists' →
  all_top_tracks sp artists = Ok all_tracks_map →
  ∃ all_tracks_map',
    all_top_tracks sp artists' = Ok all_tracks_map' ∧
    as_mapping all_tracks_map' = as_mapping all_tracks_map ∧
    ∀ artist, artist ∈ artists →
      as_mapping all_tracks_map' !! artist = Some (tracks_for sp artist) ∧
      as_mapping all_tracks_map !! artist = Some (tracks_for sp artist).
Proof.
  intros Hperm Hagg.
  apply all_top_tracks_Ok_inv in Hagg as [Hall ->].
  assert (Hall' : Forall (fun artist => is_ok (retrieve_id sp artist)) artists').
  { by rewrite <- Hperm. }
  exists (entry sp <$> artists').
  split; [by apply all_top_tracks_Ok|].
  assert (Heq : as_mapping (entry sp <$> artists') =
                as_mapping (entry sp <$> artists)).
  { apply map_eq. intros q. rewrite !as_mapping_lookup.
    destruct (decide (q ∈ artists)) as [Hin|Hnin].
    - rewrite decide_True; [done|]. by rewrite <- Hperm.
    - rewrite decide_False; [done|]. by rewrite <- Hperm. }
  split; [done|]. intros artist Hin. rewrite Heq, as_mapping_lookup.
  by rewrite decide_True.
Qed.

Lemma all_top_tracks_permutation_witness :
  ∃ all_tracks_map',
    all_top_tracks Demo.catalog ["D"; "A"; "C"] = Ok all_tracks_map' ∧
    as_mapping all_tracks_map' =
      as_mapping (entry Demo.catalog <$> ["A"; "C"; "D"]) ∧
    ∀ artist, artist ∈ ["A"; "C"; "D"] →
      as_mapping all_tracks_map' !! artist =
        Some (tracks_for Demo.catalog artist) ∧
      as_mapping (entry Demo.catalog <$> ["A"; "C"; "D"]) !! artist =
        Some (tracks_for Demo.catalog artist).
Proof.
  apply (all_top_tracks_permutation Demo.catalog ["A"; "C"; "D"] ["D"; "A"; "C"]).
  - change ["D"; "A"; "C"] with (["D"] ++ ["A"; "C"]).
    change ["A"; "C"; "D"] with (["A"; "C"] ++ ["D"]).
    apply Permutation_app_comm.
  - vm_compute. reflexivity.
Defined.

(** * Further properties of the four operations *)

(** ** [retrieve_id] *)

Lemma lookup_size_pos {V} (d : gmap string V) key v :
  d !! key = Some v → (0 <? size d)%nat = true.
Proof.
  intros Hkey. apply Nat.ltb_lt.
  assert (size d ≠ 0%nat); [|lia].
  apply map_size_non_empty_iff. intros ->. by rewrite lookup_empty in Hkey.
Qed.

(** What [retrieve_id] does on a response with at least one key. *)
Lemma retrieve_id_nonempty sp artist_name :
  search sp ("artist:" +:+ artist_name) "artist" ≠ ∅ →
  retrieve_id sp artist_name =
  (artists ← getitem (search sp ("artist:" +:+ artist_name) "artist") "artists";
   first ← first_item (paging_items artists);
   Ok (artist_object_id first)).
Proof.
  intros Hne. unfold retrieve_id.
  apply map_size_non_empty_iff in Hne.
  by destruct (Nat.ltb_spec 0 (size (search sp ("artist:" +:+ artist_name) "artist")));
    [|lia].
Qed.

(** X1: the first match wins: when the response lists at least one artist
    under ['artists'], [retrieve_id] returns the id of the first one, whatever
    follows it in the list. *)
Theorem retrieve_id_first_match sp artist_name artists first rest :
  search sp ("artist:" +:+ artist_name) "artist" !! "artists" = Some artists →
  paging_items artists = first :: rest →
  retrieve_id sp artist_name = Ok (artist_object_id first).
Proof.
  intros Hartists Hitems. unfold retrieve_id.
  rewrite (lookup_size_pos _ _ _ Hartists). unfold getitem.
  rewrite Hartists. simpl. by rewrite Hitems.
Qed.

Lemma retrieve_id_first_match_witness :
  retrieve_id Demo.two_matches "Queen" = Ok "first".
Proof.
  apply (retrieve_id_first_match Demo.two_matches "Queen"
           (PagingObject [ArtistObject "first"; ArtistObject "second"])
           (ArtistObject "first") [ArtistObject "second"]).
  - vm_compute. reflexivity.
  - reflexivity.
Defined.

(** X2: a response that has keys but not ['artists'] makes [retrieve_id] fail
    with [KeyError('artists')]: the length test does not protect the
    subscript. *)
Theorem retrieve_id_missing_key sp artist_name :
  search sp ("artist:" +:+ artist_name) "artist" ≠ ∅ →
  search sp ("artist:" +:+ artist_name) "artist" !! "artists" = None →
  retrieve_id sp artist_name = Raise (KeyError "artists").
Proof.
  intros Hne Hnone. rewrite (retrieve_id_nonempty _ _ Hne).
  unfold getitem. by rewrite Hnone.
Qed.

Lemma retrieve_id_missing_key_witness :
  retrieve_id Demo.other_key "Queen" = Raise (KeyError "artists").
Proof.
  apply (retrieve_id_missing_key Demo.other_key "Queen").
  - intros Hempty. apply (f_equal size) in Hempty. vm_compute in Hempty.
    discriminate.
  - vm_compute. reflexivity.
Defined.

(** X3: [retrieve_id] raises a [ValueError] exactly when the response dict
    has no key at all, and the message then ends with the artist name. *)
Theorem retrieve_id_ValueError_iff sp artist_name msg :
  retrieve_id sp artist_name = Raise (ValueError msg) ↔
  search sp ("artist:" +:+ artist_name) "artist" = ∅ ∧
  msg = "No artists found with this name: " +:+ artist_name.
Proof.
  split.
  - intros Hret.
    destruct (decide (search sp ("artist:" +:+ artist_name) "artist" = ∅))
      as [Hempty|Hne].
    + split; [done|]. unfold retrieve_id in Hret.
      rewrite Hempty, map_size_empty in Hret. simpl in Hret. congruence.
    + rewrite (retrieve_id_nonempty _ _ Hne) in Hret. unfold getitem in Hret.
      destruct (_ !! "artists") as [artists|]; [|discriminate].
      simpl in Hret. by destruct (paging_items artists).
  - intros [Hempty ->]. unfold retrieve_id.
    by rewrite Hempty, map_size_empty.
Qed.

(** ** [retrieve_tracks] *)

Lemma slice_to_prefix {A} (stop : Z) (l : list A) : slice_to stop l `prefix_of` l.
Proof. apply prefix_take. Qed.

(** X5: [retrieve_tracks] succeeds exactly for a limit of at most 10, and
    whatever the limit (negative ones included) the names it returns are an
    initial segment of the service's list: nothing is reordered, repeated or
    invented. *)
Theorem retrieve_tracks_prefix sp artist_id num_tracks :
  (is_ok (retrieve_tracks sp artist_id num_tracks) ↔ num_tracks ≤ 10) ∧
  ∀ names,
    retrieve_tracks sp artist_id num_tracks = Ok names →
    names `prefix_of`
      (track_name <$> top_tracks_tracks (artist_top_tracks sp artist_id)).
Proof.
  split.
  - split.
    + intros [names Hret]. unfold retrieve_tracks in Hret.
      destruct (Z.ltb_spec 10 num_tracks); [discriminate|lia].
    + intros Hle. rewrite retrieve_tracks_ok by done. by eexists.
  - intros names Hret.
    assert (num_tracks ≤ 10) as Hle.
    { unfold retrieve_tracks in Hret.
      destruct (Z.ltb_spec 10 num_tracks); [discriminate|lia]. }
    rewrite retrieve_tracks_ok in Hret by done. injection Hret as <-.
    destruct (slice_to_prefix num_tracks
                (top_tracks_tracks (artist_top_tracks sp artist_id)))
      as [rest Hrest].
    exists (track_name <$> rest). rewrite Hrest at 1. apply fmap_app.
Qed.

(** X6: when the service lists no more tracks than the limit, and the limit
    is at most 10, [retrieve_tracks] returns the name of every listed track;
    in particular an artist without tracks gives the empty list, not an
    error. *)
Theorem retrieve_tracks_all sp artist_id num_tracks :
  Z.of_nat (length (top_tracks_tracks (artist_top_tracks sp artist_id)))
    ≤ num_tracks →
  num_tracks ≤ 10 →
  retrieve_tracks sp artist_id num_tracks =
  Ok (track_name <$> top_tracks_tracks (artist_top_tracks sp artist_id)).
Proof.
  intros Hlen Hle. rewrite retrieve_tracks_ok by done.
  rewrite slice_to_nonneg by lia. rewrite take_ge by lia. done.
Qed.

Lemma retrieve_tracks_all_witness :
  retrieve_tracks Demo.catalog "id-artist:C" 7 = Ok ["c0"; "c1"; "c2"].
Proof.
  apply (retrieve_tracks_all Demo.catalog "id-artist:C" 7).
  - vm_compute. discriminate.
  - lia.
Defined.

(** ** [all_top_tracks] *)

(** X7: [all_top_tracks] succeeds exactly when every query of the list
    resolves; one query that does not resolve fails the whole aggregation. *)
Theorem all_top_tracks_is_ok_iff sp artists :
  is_ok (all_top_tracks sp artists) ↔
  Forall (fun artist => is_ok (retrieve_id sp artist)) artists.
Proof.
  split.
  - intros [all_tracks_map Hagg]. by apply all_top_tracks_Ok_inv in Hagg as [? _].
  - intros Hall. rewrite (all_top_tracks_Ok _ _ Hall). by eexists.
Qed.

(** X8: on success [all_top_tracks] holds one dict per query, in the order
    of the queries and with repeated queries kept: the [i]-th dict has the
    [i]-th query as its only key, bound to at most ten track names. *)
Theorem all_top_tracks_entries sp artists all_tracks_map :
  all_top_tracks sp artists = Ok all_tracks_map →
  length all_tracks_map = length artists ∧
  ∀ (i : nat) artist, artists !! i = Some artist →
    ∃ top,
      all_tracks_map !! i = Some ({[ artist := top ]} : gmap string (list string)) ∧
      top_of sp artist = Ok top ∧
      size ({[ artist := top ]} : gmap string (list string)) = 1%nat ∧
      (length top ≤ 10)%nat.
Proof.
  intros Hagg. apply all_top_tracks_Ok_inv in Hagg as [Hall ->].
  split; [by rewrite length_fmap|].
  intros i artist Hi. exists (tracks_for sp artist).
  split; [by rewrite list_lookup_fmap, Hi|].
  split.
  - rewrite Forall_forall in Hall.
    destruct (proj2 (top_of_is_ok sp artist)) as [top Htop].
    { apply Hall. by eapply list_elem_of_lookup_2. }
    by rewrite (top_of_Ok _ _ _ Htop).
  - split; [apply map_size_singleton | apply tracks_for_length].
Qed.

Lemma all_top_tracks_entries_witness :
  length [entry Demo.catalog "D"; entry Demo.catalog "C"; entry Demo.catalog "D"]
    = length ["D"; "C"; "D"] ∧
  ∀ (i : nat) artist, ["D"; "C"; "D"] !! i = Some artist →
    ∃ top,
      [entry Demo.catalog "D"; entry Demo.catalog "C"; entry Demo.catalog "D"]
        !! i = Some ({[ artist := top ]} : gmap string (list string)) ∧
      top_of Demo.catalog artist = Ok top ∧
      size ({[ artist := top ]} : gmap string (list string)) = 1%nat ∧
      (length top ≤ 10)%nat.
Proof.
  apply (all_top_tracks_entries Demo.catalog ["D"; "C"; "D"]).
  vm_compute. reflexivity.
Defined.

(** X9: the queries are looked up in list order and the first one that does
    not resolve decides the outcome: its exception is the exception of
    [all_top_tracks] and of [_run], whatever follows it in the list, whatever
    count is requested and whatever the sampler would draw. *)
Theorem first_failure_decides sp rng before artist after tracks e :
  Forall (fun a => is_ok (retrieve_id sp a)) before →
  retrieve_id sp artist = Raise e →
  all_top_tracks sp (before ++ artist :: after) = Raise e ∧
  _run sp rng (before ++ artist :: after) tracks = Raise e.
Proof.
  intros Hbefore He.
  pose proof (all_top_tracks_Raise sp before artist after e Hbefore He) as Hagg.
  split; [done|]. unfold _run. by rewrite Hagg.
Qed.

Lemma first_failure_decides_witness :
  all_top_tracks Demo.catalog (["A"] ++ "Z" :: ["B"]) =
    Raise (IndexError "list index out of range") ∧
  _run Demo.catalog Demo.rng (["A"] ++ "Z" :: ["B"]) 40 =
    Raise (IndexError "list index out of range").
Proof.
  apply (first_failure_decides Demo.catalog Demo.rng ["A"] "Z" ["B"] 40).
  - repeat constructor; eexists; vm_compute; reflexivity.
  - vm_compute. reflexivity.
Defined.

(** ** [_run] *)

Lemma flatten_tracks_entries sp artists :
  flatten_tracks (entry sp <$> artists) = artists ≫= tracks_for sp.
Proof.
  unfold flatten_tracks.
  induction artists as [|artist rest IH]; [done|].
  rewrite fmap_cons, !bind_cons, IH. f_equal. unfold entry.
  rewrite map_to_list_singleton, bind_cons. simpl. rewrite app_nil_r.
  induction (tracks_for sp artist) as [|track tracks IHt]; [done|].
  rewrite bind_cons, IHt. done.
Qed.

Lemma pool_length sp artists :
  (length (artists ≫= tracks_for sp) ≤ 10 * length artists)%nat.
Proof.
  induction artists as [|artist rest IH]; [done|].
  rewrite bind_cons, length_app.
  pose proof (tracks_for_length sp artist). simpl length. lia.
Qed.

Lemma sample_negative {A} rng (pool : list A) k :
  k < 0 →
  sample rng pool k =
  Raise (ValueError "Sample larger than population or is negative").
Proof.
  intros Hk. unfold sample. by destruct (Z.leb_spec 0 k); [lia|].
Qed.

Lemma sample_is_ok {A} rng (pool : list A) k :
  0 ≤ k ≤ Z.of_nat (length pool) → is_ok (sample rng pool k).
Proof.
  intros [H0 Hn]. unfold sample.
  destruct (Z.leb_spec 0 k); [|lia].
  destruct (Z.leb_spec k (Z.of_nat (length pool))); [|lia].
  by eexists.
Qed.

(** X10: the pool [_run] samples from is the concatenation, in request
    order, of the track lists fetched for the queries (a repeated query
    contributes its list again), and it never holds more than ten entries per
    query, which is the bound the capacity check relies on. *)
Theorem run_pool sp artists all_tracks_map :
  all_top_tracks sp artists = Ok all_tracks_map →
  flatten_tracks all_tracks_map = artists ≫= tracks_for sp ∧
  (length (flatten_tracks all_tracks_map) ≤ 10 * length artists)%nat.
Proof.
  intros Hagg. apply all_top_tracks_Ok_inv in Hagg as [_ ->].
  rewrite flatten_tracks_entries. split; [done | apply pool_length].
Qed.

Lemma run_pool_witness :
  flatten_tracks [entry Demo.catalog "D"; entry Demo.catalog "C";
                  entry Demo.catalog "D"]
    = ["D"; "C"; "D"] ≫= tracks_for Demo.catalog ∧
  (length (flatten_tracks [entry Demo.catalog "D"; entry Demo.catalog "C";
                           entry Demo.catalog "D"])
     ≤ 10 * length ["D"; "C"; "D"])%nat.
Proof.
  apply (run_pool Demo.catalog ["D"; "C"; "D"]). vm_compute. reflexivity.
Defined.

(** X11: [_run] only returns what it fetched: every returned name is a top
    track of one of the requested artists, and no name is returned more often
    than it occurs in the pool. *)
Theorem run_result_from_pool sp rng artists tracks res :
  _run sp rng artists tracks = Ok res →
  res ⊆+ artists ≫= tracks_for sp ∧
  ∀ track, track ∈ res →
    ∃ artist, artist ∈ artists ∧ track ∈ tracks_for sp artist.
Proof.
  unfold _run. intros Hrun. inv_bind Hrun.
  apply all_top_tracks_Ok_inv in Ha as [_ ->].
  destruct (_ <? _); [discriminate|].
  rewrite flatten_tracks_entries in Hrun.
  pose proof (sample_submseteq _ _ _ _ Hrun) as Hsub.
  split; [done|]. intros track Hin.
  assert (track ∈ artists ≫= tracks_for sp) as Hpool.
  { by eapply elem_of_submseteq. }
  apply list_elem_of_bind in Hpool as (artist & ? & ?). eauto.
Qed.

Lemma run_result_from_pool_witness :
  ["d0"; "c1"; "c2"] ⊆+ ["C"; "D"] ≫= tracks_for Demo.catalog ∧
  ∀ track, track ∈ ["d0"; "c1"; "c2"] →
    ∃ artist, artist ∈ ["C"; "D"] ∧ track ∈ tracks_for Demo.catalog artist.
Proof.
  apply (run_result_from_pool Demo.catalog Demo.rng ["C"; "D"] 3).
  vm_compute. reflexivity.
Defined.

(** X12: a negative count is not rejected by [_run] itself: when every
    artist resolves the capacity check lets it through and the call fails
    with the [ValueError] of [random.sample]. *)
Theorem run_negative_count sp rng artists tracks :
  Forall (fun artist => is_ok (retrieve_id sp artist)) artists →
  tracks < 0 →
  _run sp rng artists tracks =
  Raise (ValueError "Sample larger than population or is negative").
Proof.
  intros Hall Hneg. rewrite (_run_resolved _ _ _ _ Hall).
  destruct (Z.ltb_spec (Z.of_nat (length artists) * 10) tracks); [lia|].
  by apply sample_negative.
Qed.

Lemma run_negative_count_witness :
  _run Demo.catalog Demo.rng ["A"; "B"] (-3) =
  Raise (ValueError "Sample larger than population or is negative").
Proof.
  apply (run_negative_count Demo.catalog Demo.rng ["A"; "B"] (-3)).
  - repeat constructor; eexists; vm_compute; reflexivity.
  - lia.
Defined.

(** X13: [_run] returns a list exactly when every artist resolves and the
    count lies between 0 and the size of the fetched pool; the draws of the
    sampler have no influence on whether it succeeds. *)
Theorem run_is_ok_iff sp rng artists tracks :
  is_ok (_run sp rng artists tracks) ↔
  Forall (fun artist => is_ok (retrieve_id sp artist)) artists ∧
  0 ≤ tracks ≤ Z.of_nat (length (artists ≫= tracks_for sp)).
Proof.
  split.
  - intros [res Hrun]. unfold _run in Hrun. inv_bind Hrun.
    apply all_top_tracks_Ok_inv in Ha as [Hall ->].
    destruct (_ <? _); [discriminate|].
    rewrite flatten_tracks_entries in Hrun.
    by apply sample_Ok_inv in Hrun as [? _].
  - intros [Hall Hrange]. rewrite (_run_resolved _ _ _ _ Hall).
    pose proof (pool_length sp artists).
    destruct (Z.ltb_spec (Z.of_nat (length artists) * 10) tracks); [lia|].
    rewrite flatten_tracks_entries. by apply sample_is_ok.
Qed.

Lemma _run_is_ok_inv sp rng artists tracks :
  is_ok (_run sp rng artists tracks) →
  Forall (fun artist => is_ok (retrieve_id sp artist)) artists ∧
  0 ≤ tracks ≤ Z.of_nat (length (artists ≫= tracks_for sp)).
Proof.
  intros [res Hrun]. unfold _run in Hrun. inv_bind Hrun.
  apply all_top_tracks_Ok_inv in Ha as [Hall ->].
  destruct (_ <? _); [discriminate|].
  rewrite flatten_tracks_entries in Hrun.
  by apply sample_Ok_inv in Hrun as [? _].
Qed.

Lemma _run_is_ok sp rng artists tracks :
  Forall (fun artist => is_ok (retrieve_id sp artist)) artists →
  0 ≤ tracks ≤ Z.of_nat (length (artists ≫= tracks_for sp)) →
  is_ok (_run sp rng artists tracks).
Proof.
  intros Hall Hrange. rewrite (_run_resolved _ _ _ _ Hall).
  pose proof (pool_length sp artists).
  destruct (Z.ltb_spec (Z.of_nat (length artists) * 10) tracks); [lia|].
  rewrite flatten_tracks_entries. by apply sample_is_ok.
Qed.

(** The pool of a list of artists that all have ten or more tracks. *)
Lemma full_pool_length sp artists :
  Forall (fun artist => ∃ artist_id,
            retrieve_id sp artist = Ok artist_id ∧
            (10 ≤ length (top_tracks_tracks (artist_top_tracks sp artist_id)))%nat)
         artists →
  length (artists ≫= tracks_for sp) = (10 * length artists)%nat.
Proof.
  induction 1 as [|artist rest (artist_id & Hid & Hlen) _ IH]; [done|].
  rewrite bind_cons, length_app, IH. unfold tracks_for.
  rewrite (top_of_take _ _ _ Hid), length_fmap, length_take. simpl length. lia.
Qed.

(** X14: when every requested artist resolves to an id for which the service
    lists ten tracks or more, the capacity check is exact: every count from 0
    to ten per artist is served, with exactly that many names. *)
Theorem run_full_catalog sp rng artists tracks :
  Forall (fun artist => ∃ artist_id,
            retrieve_id sp artist = Ok artist_id ∧
            (10 ≤ length (top_tracks_tracks (artist_top_tracks sp artist_id)))%nat)
         artists →
  0 ≤ tracks ≤ 10 * Z.of_nat (length artists) →
  ∃ res, _run sp rng artists tracks = Ok res ∧ Z.of_nat (length res) = tracks.
Proof.
  intros Hfull Hrange.
  assert (Hall : Forall (fun artist => is_ok (retrieve_id sp artist)) artists).
  { eapply Forall_impl; [exact Hfull|]. intros a (artist_id & Hid & _).
    by eexists. }
  destruct (_run_is_ok sp rng artists tracks Hall) as [res Hrun].
  { rewrite (full_pool_length _ _ Hfull). lia. }
  exists res. split; [done|].
  rewrite (_run_resolved _ _ _ _ Hall) in Hrun.
  destruct (_ <? _); [discriminate|]. by apply sample_length in Hrun.
Qed.

Lemma run_full_catalog_witness :
  ∃ res, _run Demo.catalog Demo.rng ["A"; "B"] 20 = Ok res ∧
         Z.of_nat (length res) = 20.
Proof.
  apply (run_full_catalog Demo.catalog Demo.rng ["A"; "B"] 20).
  - repeat constructor; eexists; (split; [vm_compute; reflexivity|]);
      vm_compute; repeat constructor.
  - vm_compute. split; discriminate.
Defined.

(** X15: asking for as many tracks as the pool holds returns the whole pool,
    each fetched entry once, in some order. *)
Theorem run_whole_pool sp rng artists tracks res :
  _run sp rng artists tracks = Ok res →
  tracks = Z.of_nat (length (artists ≫= tracks_for sp)) →
  res ≡ₚ artists ≫= tracks_for sp.
Proof.
  unfold _run. intros Hrun Htracks. inv_bind Hrun.
  apply all_top_tracks_Ok_inv in Ha as [_ ->].
  destruct (_ <? _); [discriminate|].
  rewrite flatten_tracks_entries in Hrun.
  apply submseteq_length_Permutation.
  - by eapply sample_submseteq.
  - apply sample_length in Hrun. lia.
Qed.

Lemma run_whole_pool_witness :
  ["d0"; "c1"; "c2"; "c0"] ≡ₚ ["C"; "D"] ≫= tracks_for Demo.catalog.
Proof.
  apply (run_whole_pool Demo.catalog Demo.rng ["C"; "D"] 4).
  - vm_compute. reflexivity.
  - vm_compute. reflexivity.
Defined.

(** X16: the order of the artists in the request does not matter to [_run]:
    for a permuted artist list the pool is a permutation of the pool, and the
    call succeeds for exactly the same counts, whatever the sampler draws. *)
Theorem run_artist_order sp rng rng' artists artists' tracks :
  artists ≡ₚ artists' →
  artists ≫= tracks_for sp ≡ₚ artists' ≫= tracks_for sp ∧
  (is_ok (_run sp rng artists tracks) ↔ is_ok (_run sp rng' artists' tracks)).
Proof.
  intros Hperm.
  assert (Hpool : artists ≫= tracks_for sp ≡ₚ artists' ≫= tracks_for sp).
  { by apply bind_Permutation. }
  split; [done|].
  split; intros Hok; apply _run_is_ok_inv in Hok as [Hall Hrange];
    apply _run_is_ok.
  - by rewrite <- Hperm.
  - by rewrite <- Hpool.
  - by rewrite Hperm.
  - by rewrite Hpool.
Qed.

Lemma run_artist_order_witness :
  ["C"; "D"; "A"] ≫= tracks_for Demo.catalog
    ≡ₚ ["A"; "C"; "D"] ≫= tracks_for Demo.catalog ∧
  (is_ok (_run Demo.catalog Demo.rng ["C"; "D"; "A"] 12) ↔
   is_ok (_run Demo.catalog (fun _ => 0%nat) ["A"; "C"; "D"] 12)).
Proof.
  apply (run_artist_order Demo.catalog Demo.rng (fun _ => 0%nat)
           ["C"; "D"; "A"] ["A"; "C"; "D"] 12).
  change ["C"; "D"; "A"] with (["C"; "D"] ++ ["A"]).
  change ["A"; "C"; "D"] with (["A"] ++ ["C"; "D"]).
  apply Permutation_app_comm.
Defined.
